(** * Molecule layout encoders of [jsonrpc/types/serialize.go]

    A shallow embedding of the Go package [types]: the little-endian
    [uint32] primitive, the [Array], [Struct], [FixVec], [DynVec], [Table]
    and [Option] serializers, and the properties of their byte layout.

    Conventions of the embedding:
    - a Go [uint32] is a [Z] kept in [0, 2^32) by an explicit wrap-around;
    - a Go [byte] is a [Byte.byte]; a [[]byte] is a [list byte];
    - a Go slice is a list; reading or writing it out of range is a
      run-time panic, which the [outcome] monad records;
    - [bytes.Buffer] is the list of the bytes written so far;
    - a counted [for] loop is [for_range]. *)

From Stdlib Require Import ZArith NArith Lia.
From Stdlib Require Import Init.Byte Strings.Byte.
From stdpp Require Import base option list.

Local Open Scope Z_scope.

(** ** Unsigned 32-bit arithmetic *)

Module U32.

Definition modulus : Z := 2 ^ 32.

(** The conversion [uint32(x)] of a Go [int]: the low 32 bits. *)
Definition wrap (z : Z) : Z := z mod modulus.

Definition add (a b : Z) : Z := wrap (a + b).
Definition mul (a b : Z) : Z := wrap (a * b).
Definition shr (a : Z) (k : Z) : Z := Z.shiftr a k.
Definition shl (a : Z) (k : Z) : Z := wrap (Z.shiftl a k).
Definition or (a b : Z) : Z := Z.lor a b.

Definition in_range (z : Z) : Prop := 0 <= z < modulus.

End U32.

(** ** Bytes *)

Abbreviation bytes := (list byte) (only parsing).

(** The conversion [byte(v)] of a [uint32]: the low 8 bits. *)
Definition byte_of_Z (z : Z) : byte :=
  default x00 (Byte.of_N (Z.to_N (Z.land z 255))).

(** The conversion [uint32(b)] of a [byte]. *)
Definition Z_of_byte (b : byte) : Z := Z.of_N (Byte.to_N b).

(** [len(s)], a Go [int]. *)
Definition len {A : Type} (s : list A) : Z := Z.of_nat (length s).

(** ** Panics *)

Inductive panic : Type :=
| IndexOutOfRange (i : nat) (n : nat)
| SliceOutOfRange (lo hi : Z) (n : nat)
| NilDereference.

Inductive outcome (A : Type) : Type :=
| Returns (a : A)
| Panics (p : panic).

Arguments Returns {A} a.
Arguments Panics {A} p.

Definition bind {A B : Type} (m : outcome A) (k : A -> outcome B) : outcome B :=
  match m with
  | Returns a => k a
  | Panics p => Panics p
  end.

Notation "'do' x <- m ; k" := (bind m (fun x => k))
  (at level 10, x pattern, m at level 100, k at level 200).

(** ** Slices *)

(** [make([]T, n)]: [n] zero values. *)
Definition make {A : Type} (zero : A) (n : nat) : list A := replicate n zero.

(** [s[i]] as an expression. *)
Definition index {A : Type} (s : list A) (i : nat) : outcome A :=
  match s !! i with
  | Some x => Returns x
  | None => Panics (IndexOutOfRange i (length s))
  end.

(** [s[i] = v] as a statement. *)
Definition store {A : Type} (s : list A) (i : nat) (v : A) : outcome (list A) :=
  if decide (i < length s)%nat
  then Returns (<[i:=v]> s)
  else Panics (IndexOutOfRange i (length s)).

(** [for i := lo; i < lo + count; i++ { s = body i s }]. *)
Fixpoint for_range {S : Type} (lo count : nat)
    (body : nat -> S -> outcome S) (s : S) : outcome S :=
  match count with
  | O => Returns s
  | Datatypes.S count' =>
      do s' <- body lo s;
      for_range (Datatypes.S lo) count' body s'
  end.

(** ** [bytes.Buffer] *)

Module Buffer.
Abbreviation t := (list byte) (only parsing).
Definition new : t := [].
Definition Write (b : t) (p : bytes) : t := b ++ p.
Definition Bytes (b : t) : bytes := b.
End Buffer.

(** ** [encoding/binary], little endian *)

Module LittleEndian.

(** [binary.LittleEndian.PutUint32(b, v)]. *)
Definition PutUint32 (b : bytes) (v : Z) : outcome bytes :=
  do _ <- index b 3;
  do b <- store b 0 (byte_of_Z v);
  do b <- store b 1 (byte_of_Z (U32.shr v 8));
  do b <- store b 2 (byte_of_Z (U32.shr v 16));
  do b <- store b 3 (byte_of_Z (U32.shr v 24));
  Returns b.

(** [binary.LittleEndian.Uint32(b)], the decoder the properties of the
    primitive are stated with. *)
Definition Uint32 (b : bytes) : outcome Z :=
  do _ <- index b 3;
  do b0 <- index b 0;
  do b1 <- index b 1;
  do b2 <- index b 2;
  do b3 <- index b 3;
  Returns (U32.or (U32.or (U32.or (Z_of_byte b0)
                                  (U32.shl (Z_of_byte b1) 8))
                          (U32.shl (Z_of_byte b2) 16))
                  (U32.shl (Z_of_byte b3) 24)).

End LittleEndian.

(** ** The serializers *)

Definition u32Size : Z := 4.

Definition serializeUint32 (n : Z) : outcome bytes :=
  let b := make x00 4 in
  do b <- LittleEndian.PutUint32 b n;
  Returns b.

Definition SerializeStruct (fields : list bytes) : outcome bytes :=
  let b := Buffer.new in
  do b <- for_range 0 (length fields)
            (fun i b => do f <- index fields i; Returns (Buffer.Write b f)) b;
  Returns (Buffer.Bytes b).

Definition SerializeFixVec (items : list bytes) : outcome bytes :=
  if len items =? 0 then Returns [x00; x00; x00; x00]
  else
    do l <- serializeUint32 (U32.wrap (len items));
    let b := Buffer.new in
    let b := Buffer.Write b l in
    do b <- for_range 0 (length items)
              (fun i b => do it <- index items i; Returns (Buffer.Write b it)) b;
    Returns (Buffer.Bytes b).

(** The first loop of [SerializeDynVec] and [SerializeTable]: the state is
    the pair of [size] and [offsets]. *)
Definition offsets_loop (items : list bytes) (i : nat) (st : Z * list Z)
  : outcome (Z * list Z) :=
  let '(size, offsets) := st in
  do it <- index items i;
  let size := U32.add size (U32.add u32Size (U32.wrap (len it))) in
  if decide (i <> 0%nat) then
    do prev_off <- index offsets (i - 1);
    do prev_it <- index items (i - 1);
    do offsets <- store offsets i (U32.add prev_off (U32.wrap (len prev_it)));
    Returns (size, offsets)
  else Returns (size, offsets).

(** The second loop: the offset table. *)
Definition write_offsets (offsets : list Z) (i : nat) (b : Buffer.t)
  : outcome Buffer.t :=
  do off <- index offsets i;
  do o <- serializeUint32 off;
  Returns (Buffer.Write b o).

(** The third loop: the bodies. *)
Definition write_items (items : list bytes) (i : nat) (b : Buffer.t)
  : outcome Buffer.t :=
  do it <- index items i;
  Returns (Buffer.Write b it).

Definition SerializeDynVec (items : list bytes) : outcome bytes :=
  let size := u32Size in
  if len items =? 0 then serializeUint32 size
  else
    let offsets := make 0 (length items) in
    do offsets <- store offsets 0
                    (U32.add size (U32.mul u32Size (U32.wrap (len items))));
    do (size, offsets) <- for_range 0 (length items) (offsets_loop items)
                             (size, offsets);
    let b := Buffer.new in
    do s <- serializeUint32 size;
    let b := Buffer.Write b s in
    do b <- for_range 0 (length items) (write_offsets offsets) b;
    do b <- for_range 0 (length items) (write_items items) b;
    Returns (Buffer.Bytes b).

Definition SerializeTable (fields : list bytes) : outcome bytes :=
  let size := u32Size in
  let offsets := make 0 (length fields) in
  do offsets <- store offsets 0
                  (U32.add u32Size (U32.mul u32Size (U32.wrap (len fields))));
  do (size, offsets) <- for_range 0 (length fields) (offsets_loop fields)
                           (size, offsets);
  let b := Buffer.new in
  do s <- serializeUint32 size;
  let b := Buffer.Write b s in
  do b <- for_range 0 (length fields) (write_offsets offsets) b;
  do b <- for_range 0 (length fields) (write_items fields) b;
  Returns (Buffer.Bytes b).

(** ** Serializable items

    [MolSerializer] is the interface of one method, [Serialize], which
    returns the pair of a byte slice and an [error]. A call may read and
    change the rest of the program's state ([World]) and may panic. A
    value of the interface type is [nil] or a value of an implementing
    type with its method. *)

Section Items.

Context {World error : Type}.

(** The pair [([]byte, error)]; [None] is the [nil] error. *)
Definition encoding : Type := bytes * option error.

Class MolSerializer (T : Type) : Type :=
  Serialize : T -> World -> outcome (encoding * World).

Inductive iface : Type :=
| nil_iface
| dyn (T : Type) (H : MolSerializer T) (x : T).

(** [o.Serialize()] on an interface value. *)
Definition invoke (o : iface) (w : World) : outcome (encoding * World) :=
  match o with
  | nil_iface => Panics NilDereference
  | dyn T H x => Serialize x w
  end.

(** The pair [([][]byte, error)] of [SerializeArray]; the first [None] is
    the [nil] slice. *)
Definition array_result : Type := option (list bytes) * option error.

(** The loop of [SerializeArray], [count] iterations from index [i]. *)
Fixpoint SerializeArray_loop (items : list iface) (count i : nat)
    (ret : list bytes) (w : World) : outcome (array_result * World) :=
  match count with
  | O => Returns ((Some ret, None), w)
  | S count' =>
      do it <- index items i;
      do ((bs, err), w) <- invoke it w;
      match err with
      | Some e => Returns ((None, Some e), w)
      | None =>
          do ret <- store ret i bs;
          SerializeArray_loop items count' (S i) ret w
      end
  end.

Definition SerializeArray (items : list iface) (w : World)
  : outcome (array_result * World) :=
  let ret := make [] (length items) in
  SerializeArray_loop items (length items) 0 ret w.

Definition SerializeOption (o : iface) (w : World)
  : outcome (encoding * World) :=
  match o with
  | nil_iface => Returns (([], None), w)
  | _ => invoke o w
  end.

End Items.

Arguments iface : clear implicits.
Arguments MolSerializer : clear implicits.

(** ** Reading an encoded buffer back

    The properties of the layouts are stated with the operations a reader
    of the format uses: a bounds-checked slice expression, the
    little-endian decoder at a position, and the slicing of a [DynVec] at
    the offsets of its own header. *)

(** [s[lo:hi]]. *)
Definition slice {A : Type} (s : list A) (lo hi : Z) : outcome (list A) :=
  if decide (0 <= lo <= hi /\ hi <= len s)
  then Returns (take (Z.to_nat (hi - lo)) (drop (Z.to_nat lo) s))
  else Panics (SliceOutOfRange lo hi (length s)).

(** The [uint32] stored at byte position [pos]. *)
Definition read_u32 (out : bytes) (pos : Z) : outcome Z :=
  do w <- slice out pos (pos + 4);
  LittleEndian.Uint32 w.

(** The [i]-th field of the offset table. *)
Definition read_offset (out : bytes) (i : nat) : outcome Z :=
  read_u32 out (4 + 4 * Z.of_nat i).

(** Where item [i] of [n] ends: at the next offset, or at the recorded
    total size for the last item. *)
Definition item_end (out : bytes) (n : nat) (size : Z) (i : nat) : outcome Z :=
  if decide (S i < n)%nat then read_offset out (S i) else Returns size.

Definition slice_item (out : bytes) (n : nat) (size : Z) (i : nat)
    (acc : list bytes) : outcome (list bytes) :=
  do lo <- read_offset out i;
  do hi <- item_end out n size i;
  do it <- slice out lo hi;
  Returns (acc ++ [it]).

(** Slicing an encoded [DynVec] back into its items: the item count is
    read off the first offset, which is where the offset table ends. *)
Definition slice_items (out : bytes) : outcome (list bytes) :=
  do size <- read_u32 out 0;
  if size =? 4 then Returns []
  else
    do first <- read_offset out 0;
    let n := Z.to_nat ((first - 4) / 4) in
    for_range 0 n (slice_item out n size) [].

(** ** Closed forms of the layouts *)

(** The four low-order bytes of [n], least significant first. *)
Definition le32 (n : Z) : bytes :=
  [byte_of_Z n; byte_of_Z (U32.shr n 8);
   byte_of_Z (U32.shr n 16); byte_of_Z (U32.shr n 24)].

(** The sum of the lengths of the items. *)
Definition sum_len (items : list bytes) : Z :=
  foldr (fun it acc => len it + acc) 0 items.

(** The start of item [i]: the header, the offset table, and the items
    before it. *)
Definition offset_at (items : list bytes) (i : nat) : Z :=
  4 + 4 * len items + sum_len (take i items).

Definition offsets_of (items : list bytes) : list Z :=
  (fun i => U32.wrap (offset_at items i)) <$> seq 0 (length items).

Definition total_size (items : list bytes) : Z :=
  4 + 4 * len items + sum_len items.

Definition dynvec_layout (items : list bytes) : bytes :=
  le32 (U32.wrap (total_size items))
    ++ concat (le32 <$> offsets_of items)
    ++ concat items.

(** The state of the first loop after [i] iterations: [size] covers the
    header and the first [i] items with their offset fields, and the
    offsets written so far are the starts of their items. The first offset
    is written before the loop. *)
Definition offsets_inv (items : list bytes) (i : nat) (st : Z * list Z) : Prop :=
  st.1 = U32.wrap (4 + 4 * Z.of_nat i + sum_len (take i items))
  /\ length st.2 = length items
  /\ forall j, (j < Nat.max i 1)%nat ->
               st.2 !! j = Some (U32.wrap (offset_at items j)).

(** ** Runs of [Serialize] calls *)

(** [encodes_all items w outs w']: invoked in order from the state [w],
    every item of [items] returns its bytes with a [nil] error; [outs] are
    the byte sequences, in order, and [w'] is the state after the last
    call. *)
Inductive encodes_all {World error : Type}
  : list (iface World error) -> World -> list bytes -> World -> Prop :=
| encodes_nil (w : World) : encodes_all [] w [] w
| encodes_cons (o : iface World error) (items : list (iface World error))
    (w w' w'' : World) (bs : bytes) (outs : list bytes) :
    invoke o w = Returns ((bs, None), w') ->
    encodes_all items w' outs w'' ->
    encodes_all (o :: items) w (bs :: outs) w''.

(** ** A serializable item for the examples

    A [probe] yields fixed bytes or fails with an error code; the state
    counts the calls of [Serialize]. *)

Inductive probe : Type :=
| Good (bs : bytes)
| Bad (code : nat).

#[export] Instance probe_MolSerializer : MolSerializer nat nat probe :=
  fun p calls =>
    Returns (match p with
             | Good bs => (bs, None)
             | Bad code => ([], Some code)
             end, S calls).

Definition probe_item (p : probe) : iface nat nat :=
  dyn probe probe_MolSerializer p.

(** ** Reading a struct and a fixvec back *)

(** The fields of a struct are cut out one after the other, by their
    sizes, from position [pos] on. *)
Fixpoint read_struct (sizes : list Z) (out : bytes) (pos : Z)
  : outcome (list bytes) :=
  match sizes with
  | [] => Returns []
  | s :: sizes' =>
      do f <- slice out pos (pos + s);
      do fs <- read_struct sizes' out (pos + s);
      Returns (f :: fs)
  end.

(** Item [i] of a fixvec whose items all have [size] bytes. *)
Definition read_fixvec_item (out : bytes) (size : Z) (i : nat)
    (acc : list bytes) : outcome (list bytes) :=
  do it <- slice out (4 + Z.of_nat i * size) (4 + Z.of_nat i * size + size);
  Returns (acc ++ [it]).

(** A fixvec is read back with the item size known: the count is the
    header, the items follow one after the other. *)
Definition read_fixvec (size : Z) (out : bytes) : outcome (list bytes) :=
  do n <- read_u32 out 0;
  for_range 0 (Z.to_nat n) (read_fixvec_item out size) [].

(** * Properties *)

(** ** Bytes and 32-bit words *)

Lemma land_255 (z : Z) : Z.land z 255 = z mod 256.
Proof. change 255 with (Z.ones 8). rewrite Z.land_ones by lia. reflexivity. Qed.

Lemma Z_of_byte_of_Z (z : Z) : Z_of_byte (byte_of_Z z) = z mod 256.
Proof.
  unfold Z_of_byte, byte_of_Z. rewrite land_255.
  pose proof (Z.mod_pos_bound z 256 ltac:(lia)) as Hr.
  destruct (Byte.of_N (Z.to_N (z mod 256))) as [b|] eqn:Hb; simpl.
  - apply Byte.to_of_N in Hb. rewrite Hb. lia.
  - apply Byte.of_N_None_iff in Hb. lia.
Qed.

Lemma Z_of_byte_range (b : byte) : 0 <= Z_of_byte b < 256.
Proof. unfold Z_of_byte. pose proof (Byte.to_N_bounded b). lia. Qed.

Lemma byte_of_Z_mod (a b : Z) :
  a mod 256 = b mod 256 -> byte_of_Z a = byte_of_Z b.
Proof. intros H. unfold byte_of_Z. rewrite !land_255, H. reflexivity. Qed.

Lemma wrap_in_range (a : Z) : U32.in_range (U32.wrap a).
Proof. apply Z.mod_pos_bound. reflexivity. Qed.

Lemma wrap_small (a : Z) : U32.in_range a -> U32.wrap a = a.
Proof. intros H. apply Z.mod_small. exact H. Qed.

Lemma wrap_add (a b : Z) : U32.add (U32.wrap a) (U32.wrap b) = U32.wrap (a + b).
Proof. unfold U32.add, U32.wrap. symmetry. apply Z.add_mod. discriminate. Qed.

Lemma wrap_mul (a b : Z) : U32.mul (U32.wrap a) (U32.wrap b) = U32.wrap (a * b).
Proof. unfold U32.mul, U32.wrap. symmetry. apply Z.mul_mod. discriminate. Qed.

Lemma u32Size_wrap : u32Size = U32.wrap 4.
Proof. reflexivity. Qed.

(** A word in range has no bit at position 32 or above. *)
Lemma testbit_low32 (n i : Z) :
  U32.in_range n -> Z.testbit n i = (i <? 32) && Z.testbit n i.
Proof.
  intros Hn. rewrite <- (Z.mod_small n (2 ^ 32)) at 1 by exact Hn.
  apply Z.testbit_mod_pow2. lia.
Qed.

(** The byte of [n] at bit position [s], put back at its position, holds
    the bits [s .. s+7] of [n]. *)
Lemma testbit_part (n s i : Z) :
  0 <= s <= 24 -> 0 <= i ->
  Z.testbit (U32.shl (Z.land (U32.shr n s) 255) s) i
  = (s <=? i) && (i <? s + 8) && Z.testbit n i.
Proof.
  intros Hs Hi. unfold U32.shl, U32.shr, U32.wrap, U32.modulus.
  rewrite Z.testbit_mod_pow2 by lia.
  rewrite Z.shiftl_spec by lia.
  destruct (Z.leb_spec s i) as [Hle|Hlt].
  - rewrite Z.land_spec, Z.shiftr_spec by lia.
    replace (i - s + s) with i by lia.
    change 255 with (Z.ones 8). rewrite Z.testbit_ones_nonneg by lia.
    destruct (Z.ltb_spec (i - s) 8), (Z.ltb_spec i (s + 8)), (Z.ltb_spec i 32);
      try lia; simpl; rewrite ?andb_false_r, ?andb_true_r; reflexivity.
  - rewrite Z.testbit_neg_r by lia. rewrite andb_false_r. reflexivity.
Qed.

Lemma byte_of_shr_wrap (n s : Z) :
  0 <= s <= 24 ->
  byte_of_Z (U32.shr (U32.wrap n) s) = byte_of_Z (U32.shr n s).
Proof.
  intros Hs. apply byte_of_Z_mod. rewrite <- !land_255.
  unfold U32.shr, U32.wrap, U32.modulus.
  apply Z.bits_inj'. intros i Hi.
  rewrite !Z.land_spec, !Z.shiftr_spec, Z.testbit_mod_pow2 by lia.
  change 255 with (Z.ones 8). rewrite Z.testbit_ones_nonneg by lia.
  destruct (Z.ltb_spec i 8); rewrite ?andb_false_r; try reflexivity.
  destruct (Z.ltb_spec (i + s) 32); [reflexivity | lia].
Qed.

(** ** The little-endian primitive *)

Lemma serializeUint32_le32 (n : Z) : serializeUint32 n = Returns (le32 n).
Proof. reflexivity. Qed.

(** Only the low 32 bits of a number reach its four bytes. *)
Lemma le32_wrap (n : Z) : le32 (U32.wrap n) = le32 n.
Proof.
  unfold le32. rewrite !byte_of_shr_wrap by lia.
  f_equal. pose proof (byte_of_shr_wrap n 0 ltac:(lia)) as H0.
  unfold U32.shr in H0. rewrite !Z.shiftr_0_r in H0. exact H0.
Qed.

Lemma Uint32_le32 (n : Z) :
  U32.in_range n -> LittleEndian.Uint32 (le32 n) = Returns n.
Proof.
  intros Hn. unfold LittleEndian.Uint32, le32; simpl.
  f_equal. rewrite !Z_of_byte_of_Z, <- !land_255.
  unfold U32.or. apply Z.bits_inj'. intros i Hi.
  rewrite !Z.lor_spec, !testbit_part by lia.
  rewrite Z.land_spec. change 255 with (Z.ones 8).
  rewrite Z.testbit_ones_nonneg by lia.
  rewrite (testbit_low32 n i Hn).
  destruct (Z.ltb_spec i 8), (Z.leb_spec 8 i), (Z.ltb_spec i (8 + 8)),
    (Z.leb_spec 16 i), (Z.ltb_spec i (16 + 8)), (Z.leb_spec 24 i),
    (Z.ltb_spec i (24 + 8)), (Z.ltb_spec i 32); try lia; simpl;
    rewrite ?andb_false_r, ?andb_true_r, ?orb_false_r; reflexivity.
Qed.

Lemma byte_of_shr_value (n s : Z) :
  0 <= s -> Z_of_byte (byte_of_Z (U32.shr n s)) = (n / 2 ^ s) mod 256.
Proof.
  intros Hs. rewrite Z_of_byte_of_Z. unfold U32.shr.
  rewrite Z.shiftr_div_pow2 by lia. reflexivity.
Qed.

Example serializeUint32_0x12345678 :
  serializeUint32 305419896 = Returns [x78; x56; x34; x12].
Proof. reflexivity. Qed.

(** C6. For every unsigned 32-bit integer [n], [serializeUint32 n] returns
    (it does not panic) exactly four bytes, the least significant first:
    byte [k] holds the bits [8k .. 8k+7] of [n]; decoding the four bytes as
    a little-endian [uint32] gives [n] back. *)
Theorem serializeUint32_roundtrip (n : Z) :
  0 <= n < 2 ^ 32 ->
  exists b0 b1 b2 b3 : byte,
    serializeUint32 n = Returns [b0; b1; b2; b3]
    /\ Z_of_byte b0 = n mod 256
    /\ Z_of_byte b1 = (n / 2 ^ 8) mod 256
    /\ Z_of_byte b2 = (n / 2 ^ 16) mod 256
    /\ Z_of_byte b3 = (n / 2 ^ 24) mod 256
    /\ LittleEndian.Uint32 [b0; b1; b2; b3] = Returns n.
Proof.
  intros Hn.
  exists (byte_of_Z n), (byte_of_Z (U32.shr n 8)),
    (byte_of_Z (U32.shr n 16)), (byte_of_Z (U32.shr n 24)).
  split; [apply serializeUint32_le32|].
  split; [apply Z_of_byte_of_Z|].
  split; [apply byte_of_shr_value; lia|].
  split; [apply byte_of_shr_value; lia|].
  split; [apply byte_of_shr_value; lia|].
  apply (Uint32_le32 n Hn).
Qed.

Lemma serializeUint32_roundtrip_witness :
  exists b0 b1 b2 b3 : byte,
    serializeUint32 305419896 = Returns [b0; b1; b2; b3]
    /\ Z_of_byte b0 = 120 /\ Z_of_byte b1 = 86
    /\ Z_of_byte b2 = 52 /\ Z_of_byte b3 = 18
    /\ LittleEndian.Uint32 [b0; b1; b2; b3] = Returns 305419896.
Proof.
  destruct (serializeUint32_roundtrip 305419896)
    as (b0 & b1 & b2 & b3 & Hs & H0 & H1 & H2 & H3 & Hd); [lia|].
  exists b0, b1, b2, b3. repeat split; assumption.
Defined.

(** ** Slices and loops *)

Lemma index_Some {A : Type} (s : list A) (i : nat) (x : A) :
  s !! i = Some x -> index s i = Returns x.
Proof. intros H. unfold index. rewrite H. reflexivity. Qed.

Lemma store_lt {A : Type} (s : list A) (i : nat) (v : A) :
  (i < length s)%nat -> store s i v = Returns (<[i:=v]> s).
Proof. intros H. unfold store. destruct (decide _); [reflexivity | lia]. Qed.

Lemma nonempty_length {A : Type} (s : list A) : s <> [] -> (0 < length s)%nat.
Proof. destruct s; simpl; [easy | lia]. Qed.

Lemma len_nil_iff {A : Type} (s : list A) : (len s =? 0) = true <-> s = [].
Proof.
  unfold len. rewrite Z.eqb_eq. destruct s; simpl; split; intros; try easy; lia.
Qed.

Lemma len_app {A : Type} (l1 l2 : list A) : len (l1 ++ l2) = len l1 + len l2.
Proof. unfold len. rewrite length_app. lia. Qed.

(** The rule of the counted loop: a property that holds on entry and that
    every iteration preserves, without panic, holds on exit. *)
Lemma for_range_inv {S : Type} (P : nat -> S -> Prop)
    (body : nat -> S -> outcome S) (count : nat) :
  forall (lo : nat) (s : S),
    P lo s ->
    (forall j t, (lo <= j < lo + count)%nat -> P j t ->
                 exists t', body j t = Returns t' /\ P (Datatypes.S j) t') ->
    exists s', for_range lo count body s = Returns s' /\ P (lo + count)%nat s'.
Proof.
  induction count as [|count IH]; intros lo s Hs Hbody; simpl.
  - exists s. rewrite Nat.add_0_r. auto.
  - destruct (Hbody lo s ltac:(lia) Hs) as (t & Ht & HP). rewrite Ht; simpl.
    destruct (IH (Datatypes.S lo) t HP) as (s' & Hs' & HP').
    + intros j u Hj. apply Hbody. lia.
    + exists s'. split; [exact Hs'|].
      replace (lo + Datatypes.S count)%nat
        with (Datatypes.S lo + count)%nat by lia.
      exact HP'.
Qed.

(** A loop that writes [g (l[i])] to the buffer for each index in turn. *)
Lemma for_range_append {A : Type} (l : list A) (g : A -> bytes)
    (body : nat -> Buffer.t -> outcome Buffer.t) :
  (forall i b x, l !! i = Some x -> body i b = Returns (b ++ g x)) ->
  forall (count lo : nat) (b : Buffer.t),
    (lo + count <= length l)%nat ->
    for_range lo count body b
    = Returns (b ++ concat (g <$> take count (drop lo l))).
Proof.
  intros Hbody. induction count as [|count IH]; intros lo b Hle; simpl.
  - rewrite app_nil_r. reflexivity.
  - destruct (lookup_lt_is_Some_2 l lo ltac:(lia)) as [x Hx].
    rewrite (Hbody lo b x Hx); simpl.
    rewrite IH by lia.
    rewrite (drop_S l x lo Hx); simpl.
    rewrite <- app_assoc. reflexivity.
Qed.

Lemma for_range_append_all {A : Type} (l : list A) (g : A -> bytes)
    (body : nat -> Buffer.t -> outcome Buffer.t) (b : Buffer.t) :
  (forall i b x, l !! i = Some x -> body i b = Returns (b ++ g x)) ->
  for_range 0 (length l) body b = Returns (b ++ concat (g <$> l)).
Proof.
  intros Hbody. rewrite (for_range_append l g body Hbody) by lia.
  rewrite drop_0, firstn_all. reflexivity.
Qed.

(** ** Sums of lengths *)

Lemma sum_len_app (l1 l2 : list bytes) :
  sum_len (l1 ++ l2) = sum_len l1 + sum_len l2.
Proof. induction l1 as [|x l1 IH]; simpl; [reflexivity | rewrite IH; lia]. Qed.

Lemma sum_len_nonneg (l : list bytes) : 0 <= sum_len l.
Proof. induction l as [|x l IH]; simpl; unfold len; lia. Qed.

Lemma sum_len_take_S (items : list bytes) (i : nat) (it : bytes) :
  items !! i = Some it ->
  sum_len (take (S i) items) = sum_len (take i items) + len it.
Proof.
  intros H. rewrite (take_S_r _ _ _ H), sum_len_app. simpl. lia.
Qed.

Lemma sum_len_take_le (items : list bytes) (i : nat) :
  sum_len (take i items) <= sum_len items.
Proof.
  rewrite <- (take_drop i items) at 2. rewrite sum_len_app.
  pose proof (sum_len_nonneg (drop i items)). lia.
Qed.

Lemma len_concat (items : list bytes) : len (concat items) = sum_len items.
Proof.
  unfold len. induction items as [|x l IH]; simpl; [reflexivity|].
  rewrite length_app, Nat2Z.inj_add, IH. reflexivity.
Qed.

(** ** Struct *)

Lemma SerializeStruct_concat (fields : list bytes) :
  SerializeStruct fields = Returns (concat fields).
Proof.
  unfold SerializeStruct.
  rewrite (for_range_append_all fields id).
  - simpl. rewrite list_fmap_id. reflexivity.
  - intros i b x Hx. rewrite (index_Some _ _ _ Hx). reflexivity.
Qed.

(** C9. For every list of byte sequences, [SerializeStruct] returns (it
    has no error path and does not panic) their concatenation in input
    order and nothing else: the output length is exactly the sum of the
    field lengths, and an empty field list gives an empty output. *)
Theorem SerializeStruct_spec (fields : list bytes) :
  (exists out,
      SerializeStruct fields = Returns out
      /\ out = concat fields
      /\ len out = sum_len fields)
  /\ SerializeStruct [] = Returns [].
Proof.
  split; [|reflexivity].
  exists (concat fields). split; [apply SerializeStruct_concat|].
  split; [reflexivity | apply len_concat].
Qed.

(** ** FixVec *)

Lemma SerializeFixVec_concat (items : list bytes) :
  items <> [] ->
  SerializeFixVec items = Returns (le32 (len items) ++ concat items).
Proof.
  intros Hne. unfold SerializeFixVec.
  destruct (len items =? 0) eqn:E; [apply len_nil_iff in E; contradiction|].
  rewrite serializeUint32_le32, le32_wrap. cbn [bind].
  rewrite (for_range_append_all items id).
  - cbn [bind]. rewrite list_fmap_id. reflexivity.
  - intros i b x Hx. rewrite (index_Some _ _ _ Hx). reflexivity.
Qed.

(** ** Reading a buffer *)

Lemma slice_app_mid {A : Type} (pre mid post : list A) (lo hi : Z) :
  lo = len pre -> hi = lo + len mid ->
  slice (pre ++ mid ++ post) lo hi = Returns mid.
Proof.
  intros -> ->. unfold slice.
  destruct (decide _) as [_|Hn].
  - f_equal. unfold len.
    replace (Z.to_nat (Z.of_nat (length pre) + Z.of_nat (length mid)
                       - Z.of_nat (length pre))) with (length mid) by lia.
    rewrite Nat2Z.id, drop_app_length, take_app_length. reflexivity.
  - exfalso. apply Hn. rewrite !len_app. unfold len. lia.
Qed.

Lemma len_le32 (n : Z) : len (le32 n) = 4.
Proof. reflexivity. Qed.

Lemma read_u32_app (pre post : bytes) (v pos : Z) :
  U32.in_range v -> pos = len pre ->
  read_u32 (pre ++ le32 v ++ post) pos = Returns v.
Proof.
  intros Hv Hpos. unfold read_u32.
  rewrite (slice_app_mid pre (le32 v) post) by (rewrite ?len_le32; lia).
  cbn [bind]. apply Uint32_le32. exact Hv.
Qed.

Example SerializeFixVec_two_items :
  SerializeFixVec [[x0a; x0b]; [x0c; x0d]]
  = Returns [x02; x00; x00; x00; x0a; x0b; x0c; x0d].
Proof. reflexivity. Qed.

(** C4. [SerializeFixVec] of the empty list is exactly [0,0,0,0]. Of a
    list of [k] items it returns the four little-endian bytes of [k]
    followed by the items' bytes concatenated in input order, [4 + sum of
    the item lengths] bytes in all; when [k] fits in 32 bits the first four
    bytes decode to [k]. (The empty list obeys the same formula.) *)
Theorem SerializeFixVec_spec (items : list bytes) :
  SerializeFixVec [] = Returns [x00; x00; x00; x00]
  /\ exists out,
      SerializeFixVec items = Returns out
      /\ out = le32 (len items) ++ concat items
      /\ len out = 4 + sum_len items
      /\ (len items < 2 ^ 32 -> read_u32 out 0 = Returns (len items)).
Proof.
  split; [reflexivity|].
  exists (le32 (len items) ++ concat items).
  split; [|split; [reflexivity|split]].
  - destruct (decide (items = [])) as [->|Hne];
      [reflexivity | apply SerializeFixVec_concat; exact Hne].
  - rewrite len_app, len_concat. reflexivity.
  - intros Hk. apply (read_u32_app [] (concat items) (len items) 0);
      [|reflexivity].
    unfold U32.in_range, U32.modulus, len in *. lia.
Qed.

Lemma SerializeFixVec_spec_witness :
  exists out,
    SerializeFixVec [[x0a; x0b]; []; [x0c]] = Returns out
    /\ out = [x03; x00; x00; x00; x0a; x0b; x0c]
    /\ len out = 7
    /\ read_u32 out 0 = Returns 3.
Proof.
  destruct (SerializeFixVec_spec [[x0a; x0b]; []; [x0c]])
    as (_ & out & Hrun & Hout & Hlen & Hdec).
  exists out. split; [exact Hrun|]. split; [exact Hout|].
  split; [exact Hlen|]. apply Hdec. reflexivity.
Defined.

(** ** DynVec *)

Lemma offset_at_S (items : list bytes) (i : nat) (it : bytes) :
  items !! i = Some it ->
  offset_at items (S i) = offset_at items i + len it.
Proof. intros H. unfold offset_at. rewrite (sum_len_take_S _ _ _ H). lia. Qed.

Lemma offset_at_last (items : list bytes) (i : nat) (it : bytes) :
  items !! i = Some it -> S i = length items ->
  offset_at items i + len it = total_size items.
Proof.
  intros Hit Hlast. rewrite <- (offset_at_S _ _ _ Hit).
  unfold offset_at, total_size. rewrite Hlast, firstn_all. reflexivity.
Qed.

Lemma offset_at_bounds (items : list bytes) (i : nat) :
  total_size items < U32.modulus -> U32.in_range (offset_at items i).
Proof.
  intros Hfit. unfold U32.in_range, offset_at, total_size in *.
  pose proof (sum_len_take_le items i).
  pose proof (sum_len_nonneg (take i items)).
  unfold len in *. lia.
Qed.

Lemma total_size_bounds (items : list bytes) :
  total_size items < U32.modulus -> U32.in_range (total_size items).
Proof.
  intros Hfit. unfold U32.in_range, total_size in *.
  pose proof (sum_len_nonneg items). unfold len in *. lia.
Qed.

(** When the encoded size fits, no offset and no size wraps around. *)
Ltac unwrap Hfit :=
  rewrite wrap_small
    by (first [apply offset_at_bounds | apply total_size_bounds]; exact Hfit).

Lemma length_offsets_of (items : list bytes) :
  length (offsets_of items) = length items.
Proof. unfold offsets_of. rewrite length_fmap, length_seq. reflexivity. Qed.

Lemma lookup_offsets_of (items : list bytes) (i : nat) :
  (i < length items)%nat ->
  offsets_of items !! i = Some (U32.wrap (offset_at items i)).
Proof.
  intros Hi. unfold offsets_of.
  rewrite list_lookup_fmap, lookup_seq_lt by lia. reflexivity.
Qed.

(** *** The first loop *)

Lemma offsets_inv_init (items : list bytes) :
  items <> [] ->
  offsets_inv items 0
    (u32Size,
     <[0%nat := U32.add u32Size (U32.mul u32Size (U32.wrap (len items)))]>
       (make 0 (length items))).
Proof.
  intros Hne. pose proof (nonempty_length items Hne).
  repeat split; simpl.
  - rewrite length_insert. unfold make. apply length_replicate.
  - intros j Hj. assert (j = 0%nat) as -> by lia.
    rewrite list_lookup_insert_eq by (unfold make; rewrite length_replicate; lia).
    f_equal. rewrite u32Size_wrap, wrap_mul, wrap_add.
    unfold offset_at; simpl. f_equal. lia.
Qed.

Lemma offsets_loop_step (items : list bytes) (i : nat) (st : Z * list Z) :
  (i < length items)%nat ->
  offsets_inv items i st ->
  exists st', offsets_loop items i st = Returns st'
              /\ offsets_inv items (S i) st'.
Proof.
  intros Hi (Hsize & Hlen & Hoff). destruct st as [size offsets]; simpl in *.
  destruct (lookup_lt_is_Some_2 items i Hi) as [it Hit].
  unfold offsets_loop. rewrite (index_Some _ _ _ Hit); cbn [bind].
  assert (Hsize' : U32.add size (U32.add u32Size (U32.wrap (len it)))
                   = U32.wrap (4 + 4 * Z.of_nat (S i)
                               + sum_len (take (S i) items))).
  { rewrite Hsize, u32Size_wrap, !wrap_add, (sum_len_take_S _ _ _ Hit).
    f_equal. lia. }
  destruct (decide (i <> 0%nat)) as [Hnz|Hz].
  - destruct (lookup_lt_is_Some_2 items (i - 1) ltac:(lia)) as [prev Hprev].
    rewrite (index_Some _ _ _ (Hoff (i - 1)%nat ltac:(lia))); cbn [bind].
    rewrite (index_Some _ _ _ Hprev); cbn [bind].
    rewrite store_lt by lia; cbn [bind].
    eexists; split; [reflexivity|]. repeat split; simpl.
    + exact Hsize'.
    + rewrite length_insert. exact Hlen.
    + intros j Hj. destruct (decide (j = i)) as [->|Hne].
      * rewrite list_lookup_insert_eq by lia. f_equal.
        rewrite wrap_add. f_equal.
        replace i with (S (i - 1)) at 2 by lia.
        rewrite (offset_at_S _ _ _ Hprev). reflexivity.
      * rewrite list_lookup_insert_ne by lia. apply Hoff. lia.
  - eexists; split; [reflexivity|]. repeat split; simpl.
    + exact Hsize'.
    + exact Hlen.
    + intros j Hj. apply Hoff. lia.
Qed.

Lemma offsets_inv_final (items : list bytes) (st : Z * list Z) :
  offsets_inv items (length items) st ->
  items <> [] ->
  st = (U32.wrap (total_size items), offsets_of items).
Proof.
  intros (Hsize & Hlen & Hoff) Hne. destruct st as [size offsets]; simpl in *.
  pose proof (nonempty_length items Hne).
  f_equal.
  - rewrite Hsize, firstn_all. reflexivity.
  - apply list_eq. intros j.
    destruct (decide (j < length items)%nat) as [Hj|Hj].
    + rewrite Hoff, lookup_offsets_of by lia. reflexivity.
    + rewrite !lookup_ge_None_2 by (rewrite ?length_offsets_of; lia).
      reflexivity.
Qed.

(** *** The layout of the output *)

Lemma SerializeDynVec_layout (items : list bytes) :
  items <> [] -> SerializeDynVec items = Returns (dynvec_layout items).
Proof.
  intros Hne. unfold SerializeDynVec.
  destruct (len items =? 0) eqn:E; [apply len_nil_iff in E; contradiction|].
  pose proof (nonempty_length items Hne).
  rewrite store_lt by (unfold make; rewrite length_replicate; lia). cbn [bind].
  destruct (for_range_inv (offsets_inv items) (offsets_loop items)
              (length items) 0%nat _ (offsets_inv_init items Hne))
    as (st & Hrun & Hinv).
  { intros j t Hj. apply offsets_loop_step. lia. }
  rewrite Hrun. cbn [bind].
  apply offsets_inv_final in Hinv; [|exact Hne]. subst st.
  rewrite serializeUint32_le32. cbn [bind].
  rewrite <- (length_offsets_of items) at 1.
  rewrite (for_range_append_all (offsets_of items) le32).
  2:{ intros i b x Hx. unfold write_offsets.
      rewrite (index_Some _ _ _ Hx). cbn [bind].
      rewrite serializeUint32_le32. reflexivity. }
  cbn [bind].
  rewrite (for_range_append_all items id).
  2:{ intros i b x Hx. unfold write_items.
      rewrite (index_Some _ _ _ Hx). reflexivity. }
  cbn [bind]. rewrite list_fmap_id.
  unfold dynvec_layout, Buffer.Write, Buffer.new.
  rewrite <- app_assoc. reflexivity.
Qed.

Lemma len_concat_le32 (l : list Z) : len (concat (le32 <$> l)) = 4 * len l.
Proof.
  induction l as [|x l IH]; [reflexivity|].
  cbn [fmap list_fmap concat]. rewrite len_app, IH.
  unfold len; simpl length. lia.
Qed.

Lemma len_dynvec_layout (items : list bytes) :
  len (dynvec_layout items) = total_size items.
Proof.
  unfold dynvec_layout, total_size.
  rewrite !len_app, len_concat_le32, len_concat.
  unfold len. rewrite length_offsets_of. simpl length. lia.
Qed.

Lemma read_size_layout (items : list bytes) :
  read_u32 (dynvec_layout items) 0 = Returns (U32.wrap (total_size items)).
Proof.
  unfold dynvec_layout.
  apply (read_u32_app [] _ (U32.wrap (total_size items)) 0);
    [apply wrap_in_range | reflexivity].
Qed.

Lemma read_offset_layout (items : list bytes) (i : nat) :
  (i < length items)%nat ->
  read_offset (dynvec_layout items) i = Returns (U32.wrap (offset_at items i)).
Proof.
  intros Hi. unfold read_offset, dynvec_layout.
  rewrite <- (take_drop_middle _ _ _ (lookup_offsets_of items i Hi)).
  rewrite fmap_app, concat_app. cbn [fmap list_fmap concat].
  rewrite <- !app_assoc, app_assoc.
  apply read_u32_app; [apply wrap_in_range|].
  rewrite len_app, len_concat_le32. unfold len.
  rewrite length_take, length_offsets_of. simpl length. lia.
Qed.

Lemma slice_item_layout (items : list bytes) (i : nat) (it : bytes) :
  items !! i = Some it ->
  slice (dynvec_layout items) (offset_at items i) (offset_at items i + len it)
  = Returns it.
Proof.
  intros Hit. unfold dynvec_layout.
  assert (Hc : concat items
               = concat (take i items) ++ it ++ concat (drop (S i) items)).
  { rewrite <- (take_drop_middle _ _ _ Hit) at 1.
    rewrite concat_app. reflexivity. }
  rewrite Hc, !app_assoc, <- (app_assoc _ it).
  apply slice_app_mid; [|reflexivity].
  rewrite !len_app, len_concat_le32, len_concat.
  unfold offset_at, len. rewrite length_offsets_of. simpl length. lia.
Qed.

Example SerializeDynVec_three_items :
  SerializeDynVec [[x01; x02]; []; [x03; x04; x05]]
  = Returns [x15; x00; x00; x00;
             x10; x00; x00; x00; x12; x00; x00; x00; x12; x00; x00; x00;
             x01; x02; x03; x04; x05].
Proof. reflexivity. Qed.

Example SerializeDynVec_one_empty_item :
  SerializeDynVec [[]] = Returns [x08; x00; x00; x00; x08; x00; x00; x00].
Proof. reflexivity. Qed.

(** C5. [SerializeDynVec] of the empty list returns exactly the four bytes
    [4,0,0,0]: the size field, which reads 4, with no offset table and no
    item bodies after it. *)
Theorem SerializeDynVec_empty :
  SerializeDynVec [] = Returns [x04; x00; x00; x00]
  /\ read_u32 [x04; x00; x00; x00] 0 = Returns 4
  /\ len [x04; x00; x00; x00] = 4.
Proof. repeat split. Qed.

(** C1. For every non-empty list of [N] byte sequences whose encoded size
    [4 + 4*N + sum of the item lengths] fits in 32 bits, [SerializeDynVec]
    returns a buffer of exactly that length; its first four bytes record
    that length; offset 0 reads [4 + 4*N]; and for every item [i], offset
    [i] is where the bytes of item [i] start in the output (slicing there
    gives the item back) and, when item [i+1] exists, offset [i+1] is
    offset [i] plus the length of item [i]. *)
Theorem SerializeDynVec_header (items : list bytes) :
  items <> [] ->
  4 + 4 * len items + sum_len items < 2 ^ 32 ->
  exists out,
    SerializeDynVec items = Returns out
    /\ len out = 4 + 4 * len items + sum_len items
    /\ read_u32 out 0 = Returns (len out)
    /\ read_offset out 0 = Returns (4 + 4 * len items)
    /\ forall i it,
         items !! i = Some it ->
         exists off,
           read_offset out i = Returns off
           /\ slice out off (off + len it) = Returns it
           /\ ((S i < length items)%nat ->
               read_offset out (S i) = Returns (off + len it)).
Proof.
  intros Hne Hfit. exists (dynvec_layout items).
  pose proof (nonempty_length items Hne).
  split; [apply SerializeDynVec_layout; exact Hne|].
  split; [apply len_dynvec_layout|].
  split.
  { rewrite read_size_layout, len_dynvec_layout. unwrap Hfit. reflexivity. }
  split.
  { rewrite read_offset_layout by lia.
    unwrap Hfit.
    unfold offset_at, sum_len. rewrite take_0. cbn [foldr]. f_equal. lia. }
  intros i it Hit. exists (offset_at items i).
  pose proof (lookup_lt_Some _ _ _ Hit) as Hi.
  split; [|split].
  - rewrite read_offset_layout by lia.
    unwrap Hfit. reflexivity.
  - apply slice_item_layout. exact Hit.
  - intros Hnext. rewrite read_offset_layout by lia.
    unwrap Hfit.
    rewrite (offset_at_S _ _ _ Hit). reflexivity.
Qed.

Lemma SerializeDynVec_header_witness :
  exists out,
    SerializeDynVec [[x01; x02]; [x03]; [x04; x05; x06]] = Returns out
    /\ len out = 22
    /\ read_u32 out 0 = Returns 22
    /\ read_offset out 0 = Returns 16
    /\ read_offset out 1 = Returns 18
    /\ read_offset out 2 = Returns 19
    /\ slice out 16 18 = Returns [x01; x02]
    /\ slice out 18 19 = Returns [x03]
    /\ slice out 19 22 = Returns [x04; x05; x06].
Proof.
  destruct (SerializeDynVec_header [[x01; x02]; [x03]; [x04; x05; x06]])
    as (out & Hrun & Hlen & Hsize & Hfirst & Hitems);
    [discriminate | reflexivity |].
  destruct (Hitems 0%nat _ eq_refl) as (o0 & Ho0 & Hs0 & Hn0).
  destruct (Hitems 1%nat _ eq_refl) as (o1 & Ho1 & Hs1 & Hn1).
  destruct (Hitems 2%nat _ eq_refl) as (o2 & Ho2 & Hs2 & _).
  assert (E0 : Returns o0 = Returns 16) by (rewrite <- Ho0; exact Hfirst).
  injection E0 as ->.
  specialize (Hn0 ltac:(simpl; lia)).
  assert (E1 : Returns o1 = Returns 18) by (rewrite <- Ho1; exact Hn0).
  injection E1 as ->.
  specialize (Hn1 ltac:(simpl; lia)).
  assert (E2 : Returns o2 = Returns 19) by (rewrite <- Ho2; exact Hn1).
  injection E2 as ->.
  exists out. rewrite Hlen in Hsize.
  repeat split; assumption.
Defined.

(** *** Slicing the output back *)

Lemma slice_items_layout (items : list bytes) :
  items <> [] -> total_size items < U32.modulus ->
  slice_items (dynvec_layout items) = Returns items.
Proof.
  intros Hne Hfit. pose proof (nonempty_length items Hne) as Hn.
  unfold slice_items. rewrite read_size_layout. cbn [bind].
  unwrap Hfit.
  destruct (total_size items =? 4) eqn:E.
  { apply Z.eqb_eq in E. unfold total_size in E.
    pose proof (sum_len_nonneg items). unfold len in E. lia. }
  rewrite read_offset_layout by lia. cbn [bind].
  unwrap Hfit.
  replace (Z.to_nat ((offset_at items 0 - 4) / 4)) with (length items).
  2:{ unfold offset_at, sum_len, len. rewrite take_0. cbn [foldr].
      replace (4 + 4 * Z.of_nat (length items) + 0 - 4)
        with (Z.of_nat (length items) * 4) by lia.
      rewrite Z.div_mul by lia. lia. }
  destruct (for_range_inv (fun i acc => acc = take i items)
              (slice_item (dynvec_layout items) (length items)
                 (total_size items))
              (length items) 0%nat [] eq_refl) as (acc & Hrun & Hacc).
  - intros i acc [_ Hi] ->. simpl in Hi.
    destruct (lookup_lt_is_Some_2 items i Hi) as [it Hit].
    exists (take (S i) items). split; [|reflexivity].
    unfold slice_item. rewrite read_offset_layout by lia. cbn [bind].
    unwrap Hfit.
    assert (Hend : item_end (dynvec_layout items) (length items)
                     (total_size items) i
                   = Returns (offset_at items i + len it)).
    { unfold item_end. destruct (decide (S i < length items)%nat) as [Hlt|Hge].
      - rewrite read_offset_layout by lia.
        unwrap Hfit.
        rewrite (offset_at_S _ _ _ Hit). reflexivity.
      - rewrite (offset_at_last _ _ _ Hit) by lia. reflexivity. }
    rewrite Hend. cbn [bind].
    rewrite (slice_item_layout _ _ _ Hit). cbn [bind].
    rewrite (take_S_r _ _ _ Hit). reflexivity.
  - rewrite Hrun, Hacc. simpl. rewrite firstn_all. reflexivity.
Qed.

(** C3. For every list of byte sequences, of any length (0, 1, 3 or more)
    and any mix of item lengths, whose encoded size fits in 32 bits:
    slicing the output of [SerializeDynVec] at the offsets of its own
    header, item [i] from offset [i] to offset [i+1] and the last item up
    to the recorded total size, gives the original items back. *)
Theorem SerializeDynVec_slice_roundtrip (items : list bytes) :
  4 + 4 * len items + sum_len items < 2 ^ 32 ->
  exists out,
    SerializeDynVec items = Returns out /\ slice_items out = Returns items.
Proof.
  intros Hfit. destruct (decide (items = [])) as [->|Hne].
  - exists [x04; x00; x00; x00]. split; reflexivity.
  - exists (dynvec_layout items). split.
    + apply SerializeDynVec_layout. exact Hne.
    + apply slice_items_layout; [exact Hne | exact Hfit].
Qed.

Lemma SerializeDynVec_slice_roundtrip_witness :
  (exists out,
      SerializeDynVec [] = Returns out /\ slice_items out = Returns [])
  /\ (exists out,
        SerializeDynVec [[x07]] = Returns out
        /\ slice_items out = Returns [[x07]])
  /\ (exists out,
        SerializeDynVec [[x01; x02]; []; [x03; x04; x05]; [x06]] = Returns out
        /\ slice_items out = Returns [[x01; x02]; []; [x03; x04; x05]; [x06]]).
Proof.
  split; [|split].
  - apply (SerializeDynVec_slice_roundtrip []). reflexivity.
  - apply (SerializeDynVec_slice_roundtrip [[x07]]). reflexivity.
  - apply (SerializeDynVec_slice_roundtrip
             [[x01; x02]; []; [x03; x04; x05]; [x06]]).
    reflexivity.
Defined.

(** ** Table *)

(** C2. [SerializeTable] of the empty field list does not return the
    header-only output [4,0,0,0] of the empty [SerializeDynVec]: the store
    of the first offset into the empty offset table panics with an index
    out of range. *)
Theorem SerializeTable_empty_panics :
  SerializeTable [] = Panics (IndexOutOfRange 0 0).
Proof. reflexivity. Qed.

Lemma SerializeTable_nonempty (fields : list bytes) :
  fields <> [] -> SerializeTable fields = SerializeDynVec fields.
Proof.
  intros Hne. unfold SerializeTable, SerializeDynVec.
  destruct (len fields =? 0) eqn:E; [apply len_nil_iff in E; contradiction|].
  reflexivity.
Qed.

(** C10. [SerializeTable] and [SerializeDynVec] return the same bytes on
    every non-empty list, and they differ on the empty list only. *)
Theorem SerializeTable_DynVec_agree (items : list bytes) :
  SerializeTable items = SerializeDynVec items <-> items <> [].
Proof.
  split.
  - intros Heq ->. discriminate Heq.
  - apply SerializeTable_nonempty.
Qed.

Lemma SerializeTable_DynVec_agree_witness :
  SerializeTable [[x01; x02]; []; [x03]]
  = SerializeDynVec [[x01; x02]; []; [x03]].
Proof.
  apply (SerializeTable_DynVec_agree [[x01; x02]; []; [x03]]). discriminate.
Defined.

(** ** Array and Option *)

Section ItemProperties.

Context {World error : Type}.
Implicit Types (items pre good rest post : list (iface World error)).
Implicit Types (w : World) (outs filled : list bytes).

Lemma encodes_all_length items w outs w' :
  encodes_all items w outs w' -> length outs = length items.
Proof. induction 1; simpl; congruence. Qed.

(** The loop over a run [good] of succeeding items, in the middle of the
    slice: their byte sequences fill the next slots of [ret], and the loop
    goes on after them from the state they leave. *)
Lemma SerializeArray_loop_good good w outs w' :
  encodes_all good w outs w' ->
  forall pre rest filled,
    length filled = length pre ->
    SerializeArray_loop (pre ++ good ++ rest)
      (length good + length rest) (length pre)
      (filled ++ make [] (length good + length rest)) w
    = SerializeArray_loop (pre ++ good ++ rest)
        (length rest) (length pre + length good)
        ((filled ++ outs) ++ make [] (length rest)) w'.
Proof.
  induction 1 as [w|o items w w' w'' bs outs Hcall Hrest IH];
    intros pre rest filled Hlen.
  - simpl. rewrite Nat.add_0_r, app_nil_r. reflexivity.
  - assert (Hl : pre ++ (o :: items) ++ rest = (pre ++ [o]) ++ items ++ rest)
      by (rewrite <- app_assoc; reflexivity).
    cbn [length Nat.add SerializeArray_loop].
    rewrite (index_Some _ _ o)
      by (rewrite lookup_app_r, Nat.sub_diag by lia; reflexivity).
    cbn [bind]. rewrite Hcall. cbn [bind].
    rewrite store_lt
      by (rewrite length_app; unfold make; rewrite length_replicate;
          simpl; lia).
    cbn [bind].
    replace (<[length pre:=bs]>
               (filled ++ make [] (S (length items + length rest))))
      with ((filled ++ [bs]) ++ make [] (length items + length rest)).
    2:{ rewrite <- Hlen, insert_app_r_alt, Nat.sub_diag by lia.
        rewrite <- app_assoc. reflexivity. }
    specialize (IH (pre ++ [o]) rest (filled ++ [bs])).
    rewrite !length_app in IH. simpl length in IH.
    rewrite !Nat.add_1_r in IH.
    rewrite <- (app_assoc filled [bs] outs) in IH. simpl app in IH.
    rewrite Hl, IH by lia.
    replace (S (length pre) + length items)%nat
      with (length pre + S (length items))%nat by lia.
    reflexivity.
Qed.

(** C7. Let the items of [pre], invoked in order, all succeed, with byte
    sequences [outs]. Then [SerializeArray pre] returns [outs], one byte
    sequence per item in input order (not concatenated), with no error.
    And if a next item [x] fails with the error [e], then for any later
    items [post], [SerializeArray (pre ++ x :: post)] returns that error
    and no result list: the byte sequences of [pre] are dropped, and the
    state is the one [x] left, so no item of [post] was invoked. *)
Theorem SerializeArray_fail_fast pre w0 outs w1 :
  encodes_all pre w0 outs w1 ->
  SerializeArray pre w0 = Returns ((Some outs, None), w1)
  /\ forall x post bs e w2,
       invoke x w1 = Returns ((bs, Some e), w2) ->
       SerializeArray (pre ++ x :: post) w0 = Returns ((None, Some e), w2).
Proof.
  intros Hpre. split.
  - unfold SerializeArray.
    pose proof (SerializeArray_loop_good pre w0 outs w1 Hpre [] [] [] eq_refl)
      as H.
    simpl in H. rewrite !app_nil_r, Nat.add_0_r in H. exact H.
  - intros x post bs e w2 Hx. unfold SerializeArray.
    pose proof (SerializeArray_loop_good pre w0 outs w1 Hpre [] (x :: post) []
                  eq_refl) as H.
    cbn [app length Nat.add] in H. rewrite length_app. cbn [length].
    rewrite H. cbn [length SerializeArray_loop].
    rewrite (index_Some _ _ x)
      by (rewrite lookup_app_r, Nat.sub_diag by lia; reflexivity).
    cbn [bind]. rewrite Hx. reflexivity.
Qed.

(** C8. [SerializeOption] of the absent ([nil]) item returns the empty byte
    sequence and no error, and invokes nothing; of a present item it
    returns exactly what the item's own [Serialize] returns, bytes and
    error alike, with nothing added. *)
Theorem SerializeOption_spec :
  (forall w,
      SerializeOption (@nil_iface World error) w = Returns (([], None), w))
  /\ (forall T (H : MolSerializer World error T) (x : T) w,
        SerializeOption (dyn T H x) w = Serialize x w).
Proof. split; reflexivity. Qed.

End ItemProperties.

Lemma SerializeArray_fail_fast_witness :
  SerializeArray [probe_item (Good [x01]); probe_item (Good [x02; x03])] 0%nat
  = Returns ((Some [[x01]; [x02; x03]], None), 2%nat)
  /\ SerializeArray
       ([probe_item (Good [x01]); probe_item (Good [x02; x03])]
          ++ probe_item (Bad 7) :: [probe_item (Good [x04]); nil_iface])
       0%nat
     = Returns ((None, Some 7%nat), 3%nat).
Proof.
  destruct (SerializeArray_fail_fast
              [probe_item (Good [x01]); probe_item (Good [x02; x03])]
              0%nat [[x01]; [x02; x03]] 2%nat) as [Hok Hfail].
  - apply (encodes_cons _ _ 0%nat 1%nat 2%nat); [reflexivity|].
    apply (encodes_cons _ _ 1%nat 2%nat 2%nat); [reflexivity|].
    apply encodes_nil.
  - split; [exact Hok|].
    apply (Hfail (probe_item (Bad 7)) _ [] 7%nat 3%nat). reflexivity.
Defined.

(** * Further properties of the encoders *)

(** ** DynVec and Table beyond the 32-bit range *)

(** X1. [SerializeDynVec] never panics and checks no overflow: the output
    is always [4 + 4*N + sum of the item lengths] bytes long, while the
    size field and the offset fields hold the true size and the true item
    starts modulo [2^32]. *)
Theorem SerializeDynVec_wraps (items : list bytes) :
  exists out,
    SerializeDynVec items = Returns out
    /\ len out = 4 + 4 * len items + sum_len items
    /\ read_u32 out 0 = Returns (len out mod 2 ^ 32)
    /\ forall i,
         (i < length items)%nat ->
         read_offset out i
         = Returns ((4 + 4 * len items + sum_len (take i items)) mod 2 ^ 32).
Proof.
  destruct (decide (items = [])) as [->|Hne].
  - exists [x04; x00; x00; x00]. repeat split. intros i Hi. simpl in Hi. lia.
  - exists (dynvec_layout items).
    split; [apply SerializeDynVec_layout; exact Hne|].
    split; [apply len_dynvec_layout|].
    split.
    + rewrite read_size_layout, len_dynvec_layout. reflexivity.
    + intros i Hi. rewrite read_offset_layout by exact Hi. reflexivity.
Qed.

(** X2. On a non-empty field list whose encoded size fits in 32 bits,
    [SerializeTable] returns a buffer whose size field is its length and
    which, sliced at the offsets of its header, gives the fields back. *)
Theorem SerializeTable_slice_roundtrip (fields : list bytes) :
  fields <> [] ->
  4 + 4 * len fields + sum_len fields < 2 ^ 32 ->
  exists out,
    SerializeTable fields = Returns out
    /\ len out = 4 + 4 * len fields + sum_len fields
    /\ read_u32 out 0 = Returns (len out)
    /\ slice_items out = Returns fields.
Proof.
  intros Hne Hfit. exists (dynvec_layout fields).
  split; [rewrite SerializeTable_nonempty by exact Hne;
          apply SerializeDynVec_layout; exact Hne|].
  split; [apply len_dynvec_layout|].
  split.
  - rewrite read_size_layout, len_dynvec_layout. unwrap Hfit. reflexivity.
  - apply slice_items_layout; [exact Hne | exact Hfit].
Qed.

Lemma SerializeTable_slice_roundtrip_witness :
  exists out,
    SerializeTable [[x0a]; []; [x0b; x0c]] = Returns out
    /\ len out = 19
    /\ read_u32 out 0 = Returns 19
    /\ slice_items out = Returns [[x0a]; []; [x0b; x0c]].
Proof.
  destruct (SerializeTable_slice_roundtrip [[x0a]; []; [x0b; x0c]])
    as (out & Hrun & Hlen & Hsize & Hback); [discriminate | reflexivity |].
  exists out. rewrite Hlen in Hsize. repeat split; assumption.
Defined.

(** X3. Within the 32-bit range [SerializeDynVec] is injective: two lists
    with the same output are the same list. *)
Theorem SerializeDynVec_injective (items items' : list bytes) :
  4 + 4 * len items + sum_len items < 2 ^ 32 ->
  4 + 4 * len items' + sum_len items' < 2 ^ 32 ->
  SerializeDynVec items = SerializeDynVec items' ->
  items = items'.
Proof.
  intros Hfit Hfit' Heq.
  assert (Hback : forall l : list bytes,
             4 + 4 * len l + sum_len l < 2 ^ 32 ->
             exists out, SerializeDynVec l = Returns out
                         /\ slice_items out = Returns l).
  { intros l Hl. destruct (decide (l = [])) as [->|Hne].
    - exists [x04; x00; x00; x00]. split; reflexivity.
    - exists (dynvec_layout l). split.
      + apply SerializeDynVec_layout. exact Hne.
      + apply slice_items_layout; [exact Hne | exact Hl]. }
  destruct (Hback items Hfit) as (out & Hrun & Hsl).
  destruct (Hback items' Hfit') as (out' & Hrun' & Hsl').
  rewrite Hrun, Hrun' in Heq. injection Heq as ->.
  rewrite Hsl in Hsl'. injection Hsl' as ->. reflexivity.
Qed.

Lemma SerializeDynVec_injective_witness :
  [[x01]; [x02; x03]] = [[x01]; [x02; x03]].
Proof.
  apply (SerializeDynVec_injective [[x01]; [x02; x03]] [[x01]; [x02; x03]]);
    reflexivity.
Defined.

Lemma sum_len_take_mono (items : list bytes) (i j : nat) :
  (i <= j)%nat -> sum_len (take i items) <= sum_len (take j items).
Proof.
  intros Hij. replace (take i items) with (take i (take j items)).
  - apply sum_len_take_le.
  - rewrite take_take. f_equal. lia.
Qed.

(** X4. Within the 32-bit range the offsets of a [DynVec] never decrease
    and stay between the end of the offset table and the end of the
    output. *)
Theorem SerializeDynVec_offsets_ordered (items : list bytes) (i j : nat) :
  4 + 4 * len items + sum_len items < 2 ^ 32 ->
  (i <= j < length items)%nat ->
  exists out oi oj,
    SerializeDynVec items = Returns out
    /\ read_offset out i = Returns oi
    /\ read_offset out j = Returns oj
    /\ 4 + 4 * len items <= oi <= oj
    /\ oj <= len out.
Proof.
  intros Hfit [Hij Hj].
  assert (Hne : items <> []) by (intros ->; simpl in Hj; lia).
  exists (dynvec_layout items), (offset_at items i), (offset_at items j).
  split; [apply SerializeDynVec_layout; exact Hne|].
  split; [rewrite read_offset_layout by lia; unwrap Hfit; reflexivity|].
  split; [rewrite read_offset_layout by lia; unwrap Hfit; reflexivity|].
  rewrite len_dynvec_layout. unfold offset_at, total_size.
  pose proof (sum_len_take_mono items i j Hij).
  pose proof (sum_len_nonneg (take i items)).
  pose proof (sum_len_take_le items j). lia.
Qed.

Lemma SerializeDynVec_offsets_ordered_witness :
  exists out oi oj,
    SerializeDynVec [[x01; x02]; []; [x03]] = Returns out
    /\ read_offset out 0 = Returns oi
    /\ read_offset out 2 = Returns oj
    /\ 16 <= oi <= oj
    /\ oj <= len out.
Proof.
  apply (SerializeDynVec_offsets_ordered [[x01; x02]; []; [x03]] 0 2);
    [reflexivity | simpl; lia].
Defined.

(** ** FixVec *)

Lemma sum_len_uniform (items : list bytes) (size : Z) :
  Forall (fun it => len it = size) items ->
  sum_len items = len items * size.
Proof.
  induction 1 as [|it l Hit _ IH]; [reflexivity|].
  change (sum_len (it :: l)) with (len it + sum_len l).
  rewrite IH, Hit. unfold len. simpl length. lia.
Qed.

Lemma read_fixvec_item_layout (hdr : bytes) (items : list bytes) (size : Z)
    (i : nat) (it : bytes) :
  len hdr = 4 ->
  Forall (fun it => len it = size) items ->
  items !! i = Some it ->
  read_fixvec_item (hdr ++ concat items) size i (take i items)
  = Returns (take (S i) items).
Proof.
  intros Hhdr Hall Hit. unfold read_fixvec_item.
  assert (Hsz : len it = size).
  { rewrite Forall_forall in Hall. apply Hall.
    apply list_elem_of_lookup. eauto. }
  assert (Hc : hdr ++ concat items
               = (hdr ++ concat (take i items))
                   ++ it ++ concat (drop (S i) items)).
  { rewrite <- (take_drop_middle _ _ _ Hit) at 1.
    rewrite concat_app, <- app_assoc. reflexivity. }
  rewrite Hc, (slice_app_mid _ it).
  - cbn [bind]. rewrite (take_S_r _ _ _ Hit). reflexivity.
  - rewrite len_app, len_concat, Hhdr.
    rewrite (sum_len_uniform (take i items) size)
      by (apply Forall_take; exact Hall).
    unfold len. rewrite length_take.
    pose proof (lookup_lt_Some _ _ _ Hit). lia.
  - lia.
Qed.

(** X5. A [FixVec] of fewer than [2^32] items that all have [size] bytes is
    read back from its output: the header gives the count, and cutting the
    rest into pieces of [size] bytes gives the items. *)
Theorem SerializeFixVec_roundtrip (items : list bytes) (size : Z) :
  Forall (fun it => len it = size) items ->
  len items < 2 ^ 32 ->
  exists out,
    SerializeFixVec items = Returns out
    /\ read_fixvec size out = Returns items.
Proof.
  intros Hall Hk. exists (le32 (len items) ++ concat items).
  split.
  { destruct (decide (items = [])) as [->|Hne];
      [reflexivity | apply SerializeFixVec_concat; exact Hne]. }
  unfold read_fixvec.
  assert (Hread : read_u32 (le32 (len items) ++ concat items) 0
                  = Returns (len items)).
  { apply (read_u32_app [] (concat items) (len items) 0); [|reflexivity].
    unfold U32.in_range, U32.modulus, len in *. lia. }
  rewrite Hread. cbn [bind]. unfold len at 1. rewrite Nat2Z.id.
  destruct (for_range_inv (fun i acc => acc = take i items)
              (read_fixvec_item (le32 (len items) ++ concat items) size)
              (length items) 0%nat [] eq_refl) as (acc & Hrun & Hacc).
  - intros i acc [_ Hi] ->. simpl in Hi.
    destruct (lookup_lt_is_Some_2 items i Hi) as [it Hit].
    exists (take (S i) items). split; [|reflexivity].
    apply (read_fixvec_item_layout _ _ _ _ it); [reflexivity | exact Hall | exact Hit].
  - rewrite Hrun, Hacc. simpl. rewrite firstn_all. reflexivity.
Qed.

Lemma SerializeFixVec_roundtrip_witness :
  exists out,
    SerializeFixVec [[x01; x02]; [x03; x04]; [x05; x06]] = Returns out
    /\ read_fixvec 2 out = Returns [[x01; x02]; [x03; x04]; [x05; x06]].
Proof.
  apply (SerializeFixVec_roundtrip [[x01; x02]; [x03; x04]; [x05; x06]] 2);
    [repeat constructor | reflexivity].
Defined.

(** X6. A [FixVec] records the number of items but not where they end: two
    lists with the same number of items and the same bytes in all encode
    to the same output. *)
Theorem SerializeFixVec_boundaries_lost (items items' : list bytes) :
  length items = length items' ->
  concat items = concat items' ->
  SerializeFixVec items = SerializeFixVec items'.
Proof.
  intros Hn Hc. destruct (decide (items = [])) as [->|Hne].
  - destruct items'; [reflexivity | discriminate Hn].
  - assert (Hne' : items' <> []) by (intros ->; destruct items; [easy | discriminate Hn]).
    rewrite !SerializeFixVec_concat by assumption.
    unfold len. rewrite Hn, Hc. reflexivity.
Qed.

Lemma SerializeFixVec_boundaries_lost_witness :
  SerializeFixVec [[x01]; [x02; x03]] = SerializeFixVec [[x01; x02]; [x03]].
Proof.
  apply (SerializeFixVec_boundaries_lost
           [[x01]; [x02; x03]] [[x01; x02]; [x03]]); reflexivity.
Defined.

(** ** Struct *)

Lemma concat_concat_fmap {A : Type} (groups : list (list (list A))) :
  concat (@concat A <$> groups) = concat (concat groups).
Proof.
  induction groups as [|g groups IH]; [reflexivity|].
  cbn [fmap list_fmap concat]. rewrite concat_app, <- IH. reflexivity.
Qed.

(** X7. Structs nest by flattening: serializing each group of fields as a
    struct and then the results as the fields of an outer struct gives the
    same bytes as one struct of all the fields. *)
Theorem SerializeStruct_nested (groups : list (list bytes)) :
  exists outs,
    Forall2 (fun g o => SerializeStruct g = Returns o) groups outs
    /\ SerializeStruct outs = SerializeStruct (concat groups).
Proof.
  exists (@concat byte <$> groups). split.
  - induction groups as [|g groups IH]; constructor;
      [apply SerializeStruct_concat | exact IH].
  - rewrite !SerializeStruct_concat, concat_concat_fmap. reflexivity.
Qed.

Lemma read_struct_layout (fields : list bytes) :
  forall pre post : bytes,
    read_struct (len <$> fields) (pre ++ concat fields ++ post) (len pre)
    = Returns fields.
Proof.
  induction fields as [|f fields IH]; intros pre post; [reflexivity|].
  cbn [fmap list_fmap read_struct concat].
  rewrite <- app_assoc.
  rewrite (slice_app_mid pre f) by reflexivity. cbn [bind].
  specialize (IH (pre ++ f) post).
  rewrite len_app, <- !app_assoc in IH. rewrite IH. reflexivity.
Qed.

(** X8. A struct is read back from its output when the field sizes are
    known: cutting the output into pieces of the fields' sizes, in order,
    gives the fields. *)
Theorem SerializeStruct_roundtrip (fields : list bytes) :
  exists out,
    SerializeStruct fields = Returns out
    /\ read_struct (len <$> fields) out 0 = Returns fields.
Proof.
  exists (concat fields). split; [apply SerializeStruct_concat|].
  pose proof (read_struct_layout fields [] []) as H.
  simpl in H. rewrite app_nil_r in H. exact H.
Qed.

(** ** Array *)

Section ArrayOutcomes.

Context {World error : Type}.
Implicit Types (items pre good rest post : list (iface World error)).
Implicit Types (w : World) (outs filled : list bytes).

(** One iteration of the loop, at the item [o] that follows [pre]. *)
Lemma SerializeArray_loop_step pre o rest filled w :
  length filled = length pre ->
  SerializeArray_loop (pre ++ o :: rest) (S (length rest)) (length pre)
    (filled ++ make [] (S (length rest))) w
  = do r <- invoke o w;
    match r with
    | ((bs, Some e), w') => Returns ((None, Some e), w')
    | ((bs, None), w') =>
        SerializeArray_loop ((pre ++ [o]) ++ rest) (length rest)
          (length (pre ++ [o])) ((filled ++ [bs]) ++ make [] (length rest)) w'
    end.
Proof.
  intros Hlen. cbn [SerializeArray_loop].
  rewrite (index_Some _ _ o)
    by (rewrite lookup_app_r, Nat.sub_diag by lia; reflexivity).
  cbn [bind]. destruct (invoke o w) as [[[bs [e|]] w']|p]; cbn [bind];
    try reflexivity.
  rewrite store_lt
    by (rewrite length_app; unfold make; rewrite length_replicate; simpl; lia).
  cbn [bind].
  rewrite <- Hlen, insert_app_r_alt, Nat.sub_diag by lia.
  rewrite length_app, Hlen, Nat.add_1_r, <- !app_assoc. reflexivity.
Qed.

(** X9. An item that is the [nil] interface, or whose [Serialize] panics,
    makes [SerializeArray] panic with the same panic once the items before
    it have succeeded; nothing is returned. *)
Theorem SerializeArray_panics pre w0 outs w1 x post p :
  encodes_all pre w0 outs w1 ->
  invoke x w1 = Panics p ->
  SerializeArray (pre ++ x :: post) w0 = Panics p.
Proof.
  intros Hpre Hx. unfold SerializeArray.
  pose proof (SerializeArray_loop_good pre w0 outs w1 Hpre [] (x :: post) []
                eq_refl) as H.
  cbn [app length Nat.add] in H. rewrite length_app. cbn [length].
  rewrite H.
  pose proof (SerializeArray_loop_step pre x post outs w1
                (encodes_all_length _ _ _ _ Hpre)) as Hstep.
  cbn [length] in Hstep. rewrite Hstep, Hx. reflexivity.
Qed.

(** What the loop returns from the middle of the slice, when it returns. *)
Lemma SerializeArray_loop_returns rest :
  forall pre filled w r w',
    length filled = length pre ->
    SerializeArray_loop (pre ++ rest) (length rest) (length pre)
      (filled ++ make [] (length rest)) w = Returns (r, w') ->
    (exists outs,
        r = (Some (filled ++ outs), None) /\ encodes_all rest w outs w')
    \/ (exists good x post outs w1 bs e,
          rest = good ++ x :: post
          /\ encodes_all good w outs w1
          /\ invoke x w1 = Returns ((bs, Some e), w')
          /\ r = (None, Some e)).
Proof.
  induction rest as [|o rest IH]; intros pre filled w r w' Hlen Hrun.
  - simpl in Hrun. injection Hrun as <- <-. left. exists [].
    split; [reflexivity | constructor].
  - cbn [length] in Hrun. rewrite SerializeArray_loop_step in Hrun by exact Hlen.
    destruct (invoke o w) as [[[bs [e|]] w1]|p] eqn:Hcall; cbn [bind] in Hrun.
    + injection Hrun as <- <-. right.
      exists [], o, rest, [], w, bs, e.
      repeat split; [constructor | exact Hcall].
    + apply IH in Hrun; [|rewrite !length_app; simpl; lia].
      destruct Hrun as [(outs & -> & Hall)
                       |(good & x & post & outs & w2 & bs' & e & -> & Hall & Hx & ->)].
      * left. exists (bs :: outs). split.
        -- rewrite <- app_assoc. reflexivity.
        -- econstructor; eassumption.
      * right. exists (o :: good), x, post, (bs :: outs), w2, bs', e.
        repeat split; [econstructor; eassumption | exact Hx].
    + discriminate Hrun.
Qed.

(** X10. Whenever [SerializeArray] returns, it returns either a list and no
    error, and then every item was invoked in order and succeeded with
    exactly the listed bytes, or no list and an error, and then that is
    the error of the first failing item, the items before it succeeded,
    and the state is the one that item left. It never returns both a
    list and an error, nor neither. *)
Theorem SerializeArray_returns items w r w' :
  SerializeArray items w = Returns (r, w') ->
  (exists outs, r = (Some outs, None) /\ encodes_all items w outs w')
  \/ (exists pre x post outs w1 bs e,
        items = pre ++ x :: post
        /\ encodes_all pre w outs w1
        /\ invoke x w1 = Returns ((bs, Some e), w')
        /\ r = (None, Some e)).
Proof.
  intros Hrun. unfold SerializeArray in Hrun.
  apply (SerializeArray_loop_returns items [] [] w r w' eq_refl) in Hrun.
  exact Hrun.
Qed.

End ArrayOutcomes.

Lemma SerializeArray_panics_witness :
  SerializeArray
    ([probe_item (Good [x01])] ++ nil_iface :: [probe_item (Good [x02])])
    0%nat
  = Panics NilDereference.
Proof.
  apply (SerializeArray_panics [probe_item (Good [x01])] 0%nat [[x01]] 1%nat).
  - apply (encodes_cons _ _ 0%nat 1%nat 1%nat); [reflexivity|].
    apply encodes_nil.
  - reflexivity.
Defined.

Lemma SerializeArray_returns_witness :
  (exists outs,
      (@None (list bytes), Some 7%nat) = (Some outs, None)
      /\ encodes_all [probe_item (Good [x01]); probe_item (Bad 7)] 0%nat outs
           2%nat)
  \/ (exists pre x post outs w1 bs e,
        [probe_item (Good [x01]); probe_item (Bad 7)] = pre ++ x :: post
        /\ encodes_all pre 0%nat outs w1
        /\ invoke x w1 = Returns ((bs, Some e), 2%nat)
        /\ (@None (list bytes), Some 7%nat) = (None, Some e)).
Proof.
  apply (SerializeArray_returns
           [probe_item (Good [x01]); probe_item (Bad 7)] 0%nat
           (@None (list bytes), Some 7%nat) 2%nat).
  reflexivity.
Defined.
